(** * Knight's Isolation agent: depth-limited alpha-beta search

    A shallow embedding of [my_custom_player.py] (class [CustomPlayer]):
    the opening policy [get_action], the root loop [alphabeta], the two
    mutually recursive layers [ab_min_value] / [ab_max_value] and the four
    evaluators [score], [score_central], [score_aggressive], [score_build].

    The game engine ([isolation.Isolation]) is a collaborator that the
    player only consumes; it enters as the interface [Isolation] below. *)

From Stdlib Require Import ZArith QArith Qround List Bool Lia String Ascii.
From Stdlib Require Import DecimalString.
From Stdlib Require Import Orders OrdersTac Lqa.
Import ListNotations.
Open Scope Z_scope.

(** ** Scores

    The search compares the integer heuristic [len(..) - len(..)] with the
    sentinels [float("-inf")] and [float("inf")]; a score is therefore an
    integer or one of the two infinities. *)

Inductive Score : Type :=
| NegInf
| Fin (z : Z)
| PosInf.

Module ScoreOrd.

Definition t := Score.

(** Python's [a <= b] on such numbers. *)
Definition leb (a b : Score) : bool :=
  match a, b with
  | NegInf, _ => true
  | _, PosInf => true
  | Fin x, Fin y => x <=? y
  | _, _ => false
  end.

(** Python's [a < b], i.e. [not (b <= a)] on a total order. *)
Definition ltb (a b : Score) : bool := negb (leb b a).

Definition eq := @Logic.eq Score.
Definition le (a b : Score) : Prop := Is_true (leb a b).
Definition lt (a b : Score) : Prop := Is_true (ltb a b).

Lemma le_leb (a b : Score) : le a b <-> leb a b = true.
Proof. unfold le. split; [apply Is_true_eq_true | apply Is_true_eq_left]. Qed.

Lemma lt_ltb (a b : Score) : lt a b <-> ltb a b = true.
Proof. unfold lt. split; [apply Is_true_eq_true | apply Is_true_eq_left]. Qed.

Lemma lt_leb (a b : Score) : lt a b <-> leb b a = false.
Proof.
  rewrite lt_ltb. unfold ltb. split; intros H.
  - now apply negb_true_iff in H.
  - now rewrite H.
Qed.

Lemma eq_equiv : Equivalence eq.
Proof. unfold eq; split; congruence. Qed.

Lemma lt_strorder : StrictOrder lt.
Proof.
  split.
  - intros x H. apply lt_leb in H.
    destruct x as [|x|]; simpl in H; try discriminate.
    rewrite Z.leb_refl in H. discriminate.
  - intros x y z H1 H2. apply lt_leb in H1, H2. apply lt_leb.
    destruct x as [|x|], y as [|y|], z as [|z|]; simpl in *;
      try discriminate; try reflexivity.
    apply Z.leb_gt in H1, H2. apply Z.leb_gt. lia.
Qed.

Lemma lt_compat : Proper (eq ==> eq ==> iff) lt.
Proof. unfold eq; intros a b Hab c d Hcd; subst; split; auto. Qed.

Lemma le_lteq : forall x y, le x y <-> lt x y \/ eq x y.
Proof.
  intros x y; unfold eq; rewrite le_leb, lt_leb; split.
  - destruct x as [|x|], y as [|y|]; simpl; intros H;
      try discriminate; try (now left); try (now right).
    apply Z.leb_le in H. destruct (Z.eq_dec x y) as [Hxy|Hxy].
    + right. now subst.
    + left. apply Z.leb_gt. lia.
  - intros [H|H].
    + destruct x as [|x|], y as [|y|]; simpl in *; try discriminate; auto.
      apply Z.leb_gt in H. apply Z.leb_le. lia.
    + subst y. destruct x as [|x|]; simpl; auto. apply Z.leb_refl.
Qed.

Lemma lt_total : forall x y, lt x y \/ eq x y \/ lt y x.
Proof.
  intros x y. unfold eq. rewrite !lt_leb.
  destruct x as [|x|], y as [|y|]; simpl; auto.
  destruct (Z.lt_trichotomy x y) as [H|[H|H]].
  - left. apply Z.leb_gt. exact H.
  - right; left. now subst.
  - right; right. apply Z.leb_gt. exact H.
Qed.

End ScoreOrd.

Module ScoreTac := !MakeOrderTac ScoreOrd ScoreOrd.

Infix "<=s" := ScoreOrd.le (at level 70, no associativity).
Infix "<s" := ScoreOrd.lt (at level 70, no associativity).

(** Python's two-argument [max(a, b)]: [b] when [b > a], otherwise [a]. *)
Definition smax (a b : Score) : Score := if ScoreOrd.ltb a b then b else a.

(** Python's two-argument [min(a, b)]: [b] when [b < a], otherwise [a]. *)
Definition smin (a b : Score) : Score := if ScoreOrd.ltb b a then b else a.

(** ** Players

    [player_id] is one of the two ids 0 and 1, and the opponent's id is
    [1 - self.player_id]. *)

Inductive PlayerId : Type := Player0 | Player1.

Definition player_index (p : PlayerId) : Z :=
  match p with Player0 => 0 | Player1 => 1 end.

(** [1 - self.player_id] *)
Definition opponent (p : PlayerId) : PlayerId :=
  match p with Player0 => Player1 | Player1 => Player0 end.

(** ** Python's [str] on integers

    Decimal digits, most significant first, with a leading ['-'] for a
    negative number and ["0"] for zero. *)

Definition digit_char (d : Z) : ascii := ascii_of_nat (48 + Z.to_nat d).

(** The digits of [n >= 0] in front of [acc]; [fuel] bounds their number. *)
Fixpoint decimal_digits (fuel : nat) (n : Z) (acc : string) : string :=
  match fuel with
  | O => acc
  | S fuel' =>
      let acc' := String (digit_char (n mod 10)) acc in
      if n <? 10 then acc' else decimal_digits fuel' (n / 10) acc'
  end.

Definition py_str (n : Z) : string :=
  if n <? 0 then
    String "-"%char
      (decimal_digits (S (Z.to_nat (Z.log2 (- n)))) (- n) EmptyString)
  else decimal_digits (S (Z.to_nat (Z.log2 n))) n EmptyString.

(** ** The game engine, as the player consumes it

    [locs s p] is [state.locs[p]]; [liberties s loc] is
    [state.liberties(loc)]; [board s] is [state.board].  The imported
    [isolation] module keeps the board as one integer, a bitboard: cell
    [(x, y)] of the 11 x 9 board is bit [x + 13 * y] (the stride 13 that
    [score_central] decodes), set while the cell is open. *)

Class Isolation (State Action : Type) : Type := {
  actions : State -> list Action;
  result : State -> Action -> State;
  terminal_test : State -> bool;
  utility : State -> PlayerId -> Score;
  liberties : State -> Z -> list Z;
  locs : State -> PlayerId -> Z;
  ply_count : State -> Z;
  board : State -> Z
}.

(** [str(state.board)] *)
Definition board_str {State Action : Type} {G : Isolation State Action}
    (state : State) : string :=
  py_str (board state).

(** The board with all 99 cells open: eleven set bits in each of the nine
    rows of stride 13. *)
Definition blank_board : Z := 41523161203939122082683632224299007.

(** The number of open cells: the set bits of the board. *)
Definition open_cells {State Action : Type} {G : Isolation State Action}
    (state : State) : Z :=
  Z.of_nat (List.length (filter (Z.testbit (board state))
                           (map Z.of_nat (seq 0 117)))).

(** The fraction of the 99 cells that are still open. *)
Definition open_fraction {State Action : Type} {G : Isolation State Action}
    (state : State) : Q :=
  (inject_Z (open_cells state) / 99)%Q.

(** Python's [len]. *)
Definition len {A : Type} (l : list A) : Z := Z.of_nat (List.length l).

(** [random.choice(seq)] with the drawn index made explicit: the element at
    position [r mod len(seq)], and [None] (IndexError) on an empty sequence. *)
Definition random_choice {A : Type} (r : nat) (l : list A) : option A :=
  nth_error l (r mod List.length l)%nat.

(** [s.count(c)] for a one-character pattern. *)
Fixpoint count_char (c : ascii) (s : string) : nat :=
  match s with
  | EmptyString => O
  | String c' s' => ((if Ascii.eqb c' c then 1 else 0) + count_char c s')%nat
  end.

(** Python's [a > b] on rationals. *)
Definition Qgtb (a b : Q) : bool := negb (Qle_bool a b).

Section Player.

Context {State Action : Type} {G : Isolation State Action}.

(** [self.player_id] *)
Variable player_id : PlayerId.

(** *** Evaluators *)

(** [score]: the basic heuristic. *)
Definition score (state : State) : Z :=
  let own_loc := locs state player_id in
  let opp_loc := locs state (opponent player_id) in
  let own_liberties := liberties state own_loc in
  let opp_liberties := liberties state opp_loc in
  len own_liberties - len opp_liberties.

(** [float(math.ceil(11 / 2))] and [float(math.ceil(9 / 2))] *)
Definition cen_x : Q := inject_Z (Qceiling (11 # 2)).
Definition cen_y : Q := inject_Z (Qceiling (9 # 2)).

(** The centrality of a location, as lines 99-101 compute it for either
    player. *)
Definition centrality (loc : Z) : Q :=
  let x := inject_Z (loc mod 13) in
  let y := inject_Z (loc / 13) in
  (((11 - cen_x) ^ 2 - (x - cen_x) ^ 2)
   + ((9 - cen_y) ^ 2 - (y - cen_y) ^ 2))%Q.

(** [score_central] *)
Definition score_central (state : State) : Q :=
  let own_loc := locs state player_id in
  let opp_loc := locs state (opponent player_id) in
  let own_liberties := liberties state own_loc in
  let opp_liberties := liberties state opp_loc in
  if negb (len own_liberties =? len opp_liberties) then
    inject_Z (len own_liberties - len opp_liberties)
  else
    let own_centrality := centrality own_loc in
    let opp_centrality := centrality opp_loc in
    ((own_centrality - opp_centrality) / 10)%Q.

(** [score_aggressive] *)
Definition score_aggressive (state : State) : Q :=
  let own_loc := locs state player_id in
  let opp_loc := locs state (opponent player_id) in
  let own_liberties := liberties state own_loc in
  let opp_liberties := liberties state opp_loc in
  ((3 # 2) * inject_Z (len own_liberties) - inject_Z (len opp_liberties))%Q.

(** [blocks_left = str(state.board).count('1')] *)
Definition blocks_left (state : State) : Z :=
  Z.of_nat (count_char "1"%char (board_str state)).

(** [blocks_left_percent = blocks_left / 99] *)
Definition blocks_left_percent (state : State) : Q :=
  (inject_Z (blocks_left state) / 99)%Q.

(** The [if]/[elif] ladder of [score_build], lines 134-141. *)
Definition multiplier (percent : Q) : Q :=
  if Qgtb percent (9 # 10) then (3 # 2)%Q
  else if Qgtb percent (7 # 10) then (7 # 4)%Q
  else if Qgtb percent (5 # 10) then 2%Q
  else 1%Q.

(** [score_build] *)
Definition score_build (state : State) : Q :=
  let own_loc := locs state player_id in
  let opp_loc := locs state (opponent player_id) in
  let own_liberties := liberties state own_loc in
  let opp_liberties := liberties state opp_loc in
  (inject_Z (len own_liberties)
   - multiplier (blocks_left_percent state) * inject_Z (len opp_liberties))%Q.

(** *** Searcher *)

(** The [for] loop of [ab_min_value] (lines 68-73); [child] is the call
    [self.ab_max_value(_, alpha, beta, depth - 1)]. *)
Fixpoint min_loop (child : State -> Score -> Score -> Score) (state : State)
    (acts : list Action) (value alpha beta : Score) : Score :=
  match acts with
  | [] => value
  | action :: rest =>
      let value := smin value (child (result state action) alpha beta) in
      if ScoreOrd.leb value alpha then value
      else min_loop child state rest value alpha (smin beta value)
  end.

(** The [for] loop of [ab_max_value] (lines 79-84). *)
Fixpoint max_loop (child : State -> Score -> Score -> Score) (state : State)
    (acts : list Action) (value alpha beta : Score) : Score :=
  match acts with
  | [] => value
  | action :: rest =>
      let value := smax value (child (result state action) alpha beta) in
      if ScoreOrd.leb beta value then value
      else max_loop child state rest value (smax alpha value) beta
  end.

(** The two layers, by recursion on the number of plies left, that is on
    [max(depth, 0)]: [depth <= 0] is [O], and [depth - 1] is the predecessor. *)
Fixpoint ab_min_value_n (n : nat) (state : State) (alpha beta : Score)
    {struct n} : Score :=
  if terminal_test state then utility state player_id
  else
    match n with
    | O => Fin (score state)
    | S n' => min_loop (ab_max_value_n n') state (actions state) PosInf alpha beta
    end
with ab_max_value_n (n : nat) (state : State) (alpha beta : Score)
    {struct n} : Score :=
  if terminal_test state then utility state player_id
  else
    match n with
    | O => Fin (score state)
    | S n' => max_loop (ab_min_value_n n') state (actions state) NegInf alpha beta
    end.

(** [ab_min_value(state, alpha, beta, depth)] *)
Definition ab_min_value (state : State) (alpha beta : Score) (depth : Z) : Score :=
  ab_min_value_n (Z.to_nat depth) state alpha beta.

(** [ab_max_value(state, alpha, beta, depth)] *)
Definition ab_max_value (state : State) (alpha beta : Score) (depth : Z) : Score :=
  ab_max_value_n (Z.to_nat depth) state alpha beta.

(** The local variables of [alphabeta] that its loop updates. *)
Record RootVars : Type := {
  rv_alpha : Score;
  rv_best_score : Score;
  rv_best_move : Action;
  rv_scores : list Score
}.

(** The value [v] of line 56, for the action [a] and the current [alpha]. *)
Definition root_value (state : State) (depth : Z) (alpha : Score) (a : Action)
  : Score :=
  let beta := PosInf in
  ab_min_value (result state a) alpha beta depth.

(** One iteration of the root loop (lines 56-61). *)
Definition root_step (state : State) (depth : Z) (vars : RootVars) (a : Action)
  : RootVars :=
  let v := root_value state depth (rv_alpha vars) a in
  let alpha := smax (rv_alpha vars) v in
  let scores := rv_scores vars ++ [v] in
  if ScoreOrd.ltb (rv_best_score vars) v then
    {| rv_alpha := alpha; rv_best_score := v; rv_best_move := a;
       rv_scores := scores |}
  else
    {| rv_alpha := alpha; rv_best_score := rv_best_score vars;
       rv_best_move := rv_best_move vars; rv_scores := scores |}.

(** The root loop from the initial variables of lines 50-54. *)
Definition root_loop (state : State) (depth : Z) (first : Action) : RootVars :=
  fold_left (root_step state depth) (actions state)
    {| rv_alpha := NegInf; rv_best_score := NegInf; rv_best_move := first;
       rv_scores := [] |}.

(** [alphabeta(state, depth)]; [r] is the draw of [random.choice], and
    [None] is the IndexError it raises when there is no action. *)
Definition alphabeta (r : nat) (state : State) (depth : Z) : option Action :=
  match random_choice r (actions state) with
  | None => None
  | Some first => Some (rv_best_move (root_loop state depth first))
  end.

(** What [get_action] leaves behind: [self.queue], with [put] appending, and
    a log of the calls made to [alphabeta]. *)
Record Agent : Type := {
  queue : list Action;
  alphabeta_calls : list (State * Z)
}.

Definition queue_put (a : Action) (ag : Agent) : Agent :=
  {| queue := queue ag ++ [a]; alphabeta_calls := alphabeta_calls ag |}.

Definition log_alphabeta (state : State) (depth : Z) (ag : Agent) : Agent :=
  {| queue := queue ag; alphabeta_calls := alphabeta_calls ag ++ [(state, depth)] |}.

(** [get_action(state)]; [None] when the call raises. *)
Definition get_action (r : nat) (state : State) (ag : Agent) : option Agent :=
  if ply_count state <? 2 then
    match random_choice r (actions state) with
    | Some a => Some (queue_put a ag)
    | None => None
    end
  else
    match alphabeta r state 4 with
    | Some a => Some (queue_put a (log_alphabeta state 4 ag))
    | None => None
    end.

(** *** Plain minimax

    The search of the same depth without the [alpha]/[beta] window: the same
    terminal test, the same cutoff and evaluator, and every action visited. *)
Fixpoint minimax_min_n (n : nat) (state : State) {struct n} : Score :=
  if terminal_test state then utility state player_id
  else
    match n with
    | O => Fin (score state)
    | S n' =>
        fold_left (fun value action => smin value (minimax_max_n n' (result state action)))
          (actions state) PosInf
    end
with minimax_max_n (n : nat) (state : State) {struct n} : Score :=
  if terminal_test state then utility state player_id
  else
    match n with
    | O => Fin (score state)
    | S n' =>
        fold_left (fun value action => smax value (minimax_min_n n' (result state action)))
          (actions state) NegInf
    end.

Definition minimax_min (state : State) (depth : Z) : Score :=
  minimax_min_n (Z.to_nat depth) state.

Definition minimax_max (state : State) (depth : Z) : Score :=
  minimax_max_n (Z.to_nat depth) state.

End Player.

(** *** The center-biased evaluator, as specified

    The specification describes the centrality with the half-way points 5.5
    and 4.5; kept apart from [centrality] above to compare the two. *)

Definition spec_centrality (loc : Z) : Q :=
  let x := inject_Z (loc mod 13) in
  let y := inject_Z (loc / 13) in
  ((((11 # 2) ^ 2) - (x - (11 # 2)) ^ 2)
   + (((9 # 2) ^ 2) - (y - (9 # 2)) ^ 2))%Q.

Definition spec_score_central {State Action : Type} {G : Isolation State Action}
    (player_id : PlayerId) (state : State) : Q :=
  let own_loc := locs state player_id in
  let opp_loc := locs state (opponent player_id) in
  if negb (len (liberties state own_loc) =? len (liberties state opp_loc)) then
    inject_Z (len (liberties state own_loc) - len (liberties state opp_loc))
  else ((spec_centrality own_loc - spec_centrality opp_loc) / 10)%Q.

(** ** A finite game tree, for concrete runs

    A node carries what the player reads of a state; an action is the index
    of a child. *)

#[local] Unset Elimination Schemes.
Inductive Toy : Type :=
| ToyNode (term : bool) (util : Score) (loc0 loc1 : Z) (lib0 lib1 : nat)
    (ply : Z) (bits : Z) (kids : list Toy).

#[local] Set Elimination Schemes.

Definition toy_kids (t : Toy) : list Toy :=
  match t with ToyNode _ _ _ _ _ _ _ _ kids => kids end.

Definition toy_utility (t : Toy) (p : PlayerId) : Score :=
  match t with
  | ToyNode _ util _ _ _ _ _ _ _ =>
      match p, util with
      | Player0, _ => util
      | Player1, NegInf => PosInf
      | Player1, PosInf => NegInf
      | Player1, Fin z => Fin (- z)
      end
  end.

Definition toy_liberties (t : Toy) (loc : Z) : list Z :=
  match t with
  | ToyNode _ _ loc0 loc1 lib0 lib1 _ _ _ =>
      if loc =? loc0 then repeat 0 lib0
      else if loc =? loc1 then repeat 0 lib1
      else []
  end.

Definition toy_locs (t : Toy) (p : PlayerId) : Z :=
  match t with
  | ToyNode _ _ loc0 loc1 _ _ _ _ _ =>
      match p with Player0 => loc0 | Player1 => loc1 end
  end.

#[export] Instance toy_game : Isolation Toy nat := {|
  actions t := seq 0 (List.length (toy_kids t));
  result t i := nth i (toy_kids t) t;
  terminal_test t := match t with ToyNode term _ _ _ _ _ _ _ _ => term end;
  utility := toy_utility;
  liberties := toy_liberties;
  locs := toy_locs;
  ply_count t := match t with ToyNode _ _ _ _ _ _ ply _ _ => ply end;
  board t := match t with ToyNode _ _ _ _ _ _ _ bits _ => bits end
|}.

(** A non-terminal position at ply 4 where player 0 (at cell 0) has [own]
    liberties and player 1 (at cell 1) has [opp]. *)
Definition toy_node (own opp : nat) (kids : list Toy) : Toy :=
  ToyNode false (Fin 0) 0 1 own opp 4 blank_board kids.

(** A finished game, won by player 0, whose heuristic score would be 3. *)
Definition toy_won : Toy :=
  ToyNode true PosInf 0 1 3 0 6 blank_board [].

(** Two replies: the first looks better at once (5 against 1) and is worse
    one ply deeper (0 against 2). *)
Definition toy_root : Toy :=
  toy_node 2 2 [ toy_node 6 1 [ toy_node 3 3 [] ];
                 toy_node 4 3 [ toy_node 5 3 [] ] ].

(** A position with a single legal move. *)
Definition toy_forced : Toy :=
  toy_node 1 2 [ toy_node 2 2 [] ].

(** An opening position (ply 0) with three legal moves. *)
Definition toy_opening : Toy :=
  ToyNode false (Fin 0) 0 1 3 3 0 blank_board
    [ toy_node 1 1 []; toy_node 2 2 []; toy_node 3 3 [] ].

(** A position at ply 10 with the bitboard [bits] and [own]/[opp]
    liberties. *)
Definition toy_board (own opp : nat) (bits : Z) : Toy :=
  ToyNode false (Fin 0) 0 1 own opp 10 bits [].

(** The four lowest rows open (44 cells), the five upper rows filled. *)
Definition four_rows_board : Z := 1125487539644415.

(** ** Order facts on scores *)

Lemma leb_true_le (a b : Score) : ScoreOrd.leb a b = true -> a <=s b.
Proof. apply ScoreOrd.le_leb. Qed.

Lemma leb_false_lt (a b : Score) : ScoreOrd.leb a b = false -> b <s a.
Proof. apply ScoreOrd.lt_leb. Qed.

Lemma ltb_true_lt (a b : Score) : ScoreOrd.ltb a b = true -> a <s b.
Proof. apply ScoreOrd.lt_ltb. Qed.

Lemma ltb_false_le (a b : Score) : ScoreOrd.ltb a b = false -> b <=s a.
Proof.
  unfold ScoreOrd.ltb. intros H. apply negb_false_iff in H.
  now apply ScoreOrd.le_leb.
Qed.

Lemma sle_or_lt (a b : Score) : a <=s b \/ b <s a.
Proof.
  destruct (ScoreOrd.lt_total a b) as [H|[H|H]].
  - left. ScoreTac.order.
  - left. unfold ScoreOrd.eq in H. ScoreTac.order.
  - now right.
Qed.

Lemma NegInf_least (a : Score) : NegInf <=s a.
Proof. exact I. Qed.

Lemma PosInf_greatest (a : Score) : a <=s PosInf.
Proof. destruct a; exact I. Qed.

Lemma smax_spec (a b : Score) :
  (a <s b /\ smax a b = b) \/ (b <=s a /\ smax a b = a).
Proof.
  unfold smax. destruct (ScoreOrd.ltb a b) eqn:E.
  - left. split; [now apply ltb_true_lt | reflexivity].
  - right. split; [now apply ltb_false_le | reflexivity].
Qed.

Lemma smin_spec (a b : Score) :
  (b <s a /\ smin a b = b) \/ (a <=s b /\ smin a b = a).
Proof.
  unfold smin. destruct (ScoreOrd.ltb b a) eqn:E.
  - left. split; [now apply ltb_true_lt | reflexivity].
  - right. split; [now apply ltb_false_le | reflexivity].
Qed.

(** Case analysis on one [smax] or [smin] in sight. *)
Ltac split_extremum :=
  match goal with
  | |- context [smax ?a ?b] =>
      let H := fresh "Hmax" in let x := fresh "x" in
      pose proof (smax_spec a b) as H; set (x := smax a b) in *; clearbody x;
      destruct H as [[? ?]|[? ?]]; subst x
  | |- context [smin ?a ?b] =>
      let H := fresh "Hmin" in let x := fresh "x" in
      pose proof (smin_spec a b) as H; set (x := smin a b) in *; clearbody x;
      destruct H as [[? ?]|[? ?]]; subst x
  | _ : context [smax ?a ?b] |- _ =>
      let H := fresh "Hmax" in let x := fresh "x" in
      pose proof (smax_spec a b) as H; set (x := smax a b) in *; clearbody x;
      destruct H as [[? ?]|[? ?]]; subst x
  | _ : context [smin ?a ?b] |- _ =>
      let H := fresh "Hmin" in let x := fresh "x" in
      pose proof (smin_spec a b) as H; set (x := smin a b) in *; clearbody x;
      destruct H as [[? ?]|[? ?]]; subst x
  end.

(** All of them, then the solver for total orders. *)
Ltac score_order := repeat split_extremum; try ScoreTac.order.

(** What a call with window [(alpha, beta)] tells about the minimax value
    [m] when it returns [v]: an upper bound at or below [alpha], a lower bound
    at or above [beta], the value itself strictly inside. *)
Definition bounded (alpha beta v m : Score) : Prop :=
  (v <=s alpha -> m <=s v) /\
  (beta <=s v -> v <=s m) /\
  (alpha <s v -> v <s beta -> v = m).

Lemma bounded_refl (alpha beta v : Score) : bounded alpha beta v v.
Proof. unfold bounded. repeat split; intros; ScoreTac.order. Qed.

Lemma bounded_full (v m : Score) : bounded NegInf PosInf v m -> v = m.
Proof.
  intros (H1 & H2 & H3).
  destruct v as [|z|].
  - specialize (H1 I). destruct m; try reflexivity; destruct H1.
  - apply H3; exact I.
  - specialize (H2 I). destruct m; try reflexivity; destruct H2.
Qed.

Section Pruning.

Context {State Action : Type} {G : Isolation State Action}.
Variable player_id : PlayerId.

Lemma fold_max_ge (f : Action -> Score) (l : list Action) (init : Score) :
  init <=s fold_left (fun value action => smax value (f action)) l init.
Proof.
  revert init. induction l as [|a l IH]; intros init; simpl.
  - ScoreTac.order.
  - specialize (IH (smax init (f a))). score_order.
Qed.

Lemma fold_min_le (f : Action -> Score) (l : list Action) (init : Score) :
  fold_left (fun value action => smin value (f action)) l init <=s init.
Proof.
  revert init. induction l as [|a l IH]; intros init; simpl.
  - ScoreTac.order.
  - specialize (IH (smin init (f a))). score_order.
Qed.

Lemma max_loop_ge child (state : State) acts value alpha beta :
  value <=s max_loop child state acts value alpha beta.
Proof.
  revert value alpha. induction acts as [|a rest IH]; intros value alpha; simpl.
  - ScoreTac.order.
  - destruct (ScoreOrd.leb beta _) eqn:E.
    + score_order.
    + specialize (IH (smax value (child (result state a) alpha beta))
                     (smax alpha (smax value (child (result state a) alpha beta)))).
      score_order.
Qed.

Lemma min_loop_le child (state : State) acts value alpha beta :
  min_loop child state acts value alpha beta <=s value.
Proof.
  revert value beta. induction acts as [|a rest IH]; intros value beta; simpl.
  - ScoreTac.order.
  - destruct (ScoreOrd.leb _ alpha) eqn:E.
    + score_order.
    + specialize (IH (smin value (child (result state a) alpha beta))
                     (smin beta (smin value (child (result state a) alpha beta)))).
      score_order.
Qed.

(** The loop of the maximizing layer against the plain fold, from any point
    of the iteration. *)
Lemma max_loop_bounded (child : State -> Score -> Score -> Score)
    (mm : State -> Score) (state : State)
    (Hchild : forall a alpha beta, alpha <s beta ->
        bounded alpha beta (child (result state a) alpha beta) (mm (result state a)))
    (acts : list Action) :
  forall value alpha beta mv,
    value <=s alpha -> alpha <s beta -> mv <=s value ->
    bounded alpha beta
      (max_loop child state acts value alpha beta)
      (fold_left (fun v a => smax v (mm (result state a))) acts mv).
Proof.
  induction acts as [|a rest IH]; intros value alpha beta mv Hva Hab Hmv; simpl.
  - unfold bounded. repeat split; intros; ScoreTac.order.
  - pose proof (Hchild a alpha beta Hab) as (Hc1 & Hc2 & Hc3).
    pose proof (fold_max_ge (fun a => mm (result state a)) rest
                  (smax mv (mm (result state a)))) as HM.
    set (vc := child (result state a) alpha beta) in *.
    set (mc := mm (result state a)) in *.
    destruct (ScoreOrd.leb beta (smax value vc)) eqn:E.
    + apply leb_true_le in E.
      set (M := fold_left _ rest _) in *. clearbody M vc mc.
      unfold bounded. repeat split; intros; score_order.
      all: try (assert (vc <=s mc) by (apply Hc2; ScoreTac.order); ScoreTac.order).
    + apply leb_false_lt in E.
      assert (Hmc : mc <=s smax value vc).
      { clearbody vc mc. clear HM IH.
        destruct (sle_or_lt vc alpha) as [Hle|Hle].
        - specialize (Hc1 Hle). score_order.
        - assert (vc = mc) by (apply Hc3; score_order). score_order. }
      specialize (IH (smax value vc) (smax alpha (smax value vc)) beta
                    (smax mv mc)).
      pose proof (max_loop_ge child state rest (smax value vc)
                    (smax alpha (smax value vc)) beta) as HV.
      set (M := fold_left _ rest _) in *.
      set (V := max_loop _ _ _ _ _ _) in *.
      clearbody M V vc mc.
      destruct IH as (I1 & I2 & I3).
      { score_order. } { score_order. } { score_order. }
      unfold bounded. repeat split; intros.
      * apply I1. score_order.
      * apply I2. assumption.
      * destruct (sle_or_lt V (smax alpha (smax value vc))) as [Hle|Hlt].
        -- pose proof (I1 Hle).
           assert (vc = mc) by (apply Hc3; score_order).
           score_order.
        -- apply I3; assumption.
Qed.

(** The loop of the minimizing layer, symmetrically. *)
Lemma min_loop_bounded (child : State -> Score -> Score -> Score)
    (mm : State -> Score) (state : State)
    (Hchild : forall a alpha beta, alpha <s beta ->
        bounded alpha beta (child (result state a) alpha beta) (mm (result state a)))
    (acts : list Action) :
  forall value alpha beta mv,
    beta <=s value -> alpha <s beta -> value <=s mv ->
    bounded alpha beta
      (min_loop child state acts value alpha beta)
      (fold_left (fun v a => smin v (mm (result state a))) acts mv).
Proof.
  induction acts as [|a rest IH]; intros value alpha beta mv Hbv Hab Hmv; simpl.
  - unfold bounded. repeat split; intros; ScoreTac.order.
  - pose proof (Hchild a alpha beta Hab) as (Hc1 & Hc2 & Hc3).
    pose proof (fold_min_le (fun a => mm (result state a)) rest
                  (smin mv (mm (result state a)))) as HM.
    set (vc := child (result state a) alpha beta) in *.
    set (mc := mm (result state a)) in *.
    destruct (ScoreOrd.leb (smin value vc) alpha) eqn:E.
    + apply leb_true_le in E.
      set (M := fold_left _ rest _) in *. clearbody M vc mc.
      unfold bounded. repeat split; intros; score_order.
      all: try (assert (mc <=s vc) by (apply Hc1; ScoreTac.order); ScoreTac.order).
    + apply leb_false_lt in E.
      assert (Hmc : smin value vc <=s mc).
      { clearbody vc mc. clear HM IH.
        destruct (sle_or_lt beta vc) as [Hle|Hle].
        - specialize (Hc2 Hle). score_order.
        - assert (vc = mc) by (apply Hc3; score_order). score_order. }
      specialize (IH (smin value vc) alpha (smin beta (smin value vc))
                    (smin mv mc)).
      pose proof (min_loop_le child state rest (smin value vc) alpha
                    (smin beta (smin value vc))) as HV.
      set (M := fold_left _ rest _) in *.
      set (V := min_loop _ _ _ _ _ _) in *.
      clearbody M V vc mc.
      destruct IH as (I1 & I2 & I3).
      { score_order. } { score_order. } { score_order. }
      unfold bounded. repeat split; intros.
      * apply I1. assumption.
      * apply I2. score_order.
      * destruct (sle_or_lt (smin beta (smin value vc)) V) as [Hle|Hlt].
        -- pose proof (I2 Hle).
           assert (vc = mc) by (apply Hc3; score_order).
           score_order.
        -- apply I3; assumption.
Qed.

(** Both layers, at every depth and for every proper window. *)
Lemma ab_bounded (n : nat) :
  (forall (state : State) alpha beta, alpha <s beta ->
     bounded alpha beta (ab_min_value_n player_id n state alpha beta)
       (minimax_min_n player_id n state)) /\
  (forall (state : State) alpha beta, alpha <s beta ->
     bounded alpha beta (ab_max_value_n player_id n state alpha beta)
       (minimax_max_n player_id n state)).
Proof.
  induction n as [|n [IHmin IHmax]].
  - split; intros state alpha beta Hab; simpl;
      destruct (terminal_test state); apply bounded_refl.
  - split; intros state alpha beta Hab; simpl;
      destruct (terminal_test state); try apply bounded_refl.
    + apply min_loop_bounded; auto.
      * apply PosInf_greatest.
      * ScoreTac.order.
    + apply max_loop_bounded; auto.
      * apply NegInf_least.
      * ScoreTac.order.
Qed.

End Pruning.

(** ** Rational comparisons *)

Lemma Qgtb_true (a b : Q) : Qgtb a b = true <-> (b < a)%Q.
Proof.
  unfold Qgtb. rewrite negb_true_iff. split; intros H.
  - apply Qnot_le_lt. intros Hle. apply Qle_bool_iff in Hle. congruence.
  - destruct (Qle_bool a b) eqn:E; [|reflexivity].
    apply Qle_bool_iff in E. exfalso. exact (Qlt_not_le _ _ H E).
Qed.

Lemma Qgtb_false (a b : Q) : Qgtb a b = false <-> (a <= b)%Q.
Proof.
  unfold Qgtb. rewrite negb_false_iff. apply Qle_bool_iff.
Qed.

(** The multiplier of [score_build], band by band. *)
Lemma multiplier_bands (f : Q) :
  ((9 # 10 < f)%Q -> multiplier f = (3 # 2)%Q) /\
  ((7 # 10 < f)%Q -> (f <= 9 # 10)%Q -> multiplier f = (7 # 4)%Q) /\
  ((5 # 10 < f)%Q -> (f <= 7 # 10)%Q -> multiplier f = 2%Q) /\
  ((f <= 5 # 10)%Q -> multiplier f = 1%Q).
Proof.
  unfold multiplier.
  destruct (Qgtb f (9 # 10)) eqn:E9;
    [apply Qgtb_true in E9 | apply Qgtb_false in E9];
  (destruct (Qgtb f (7 # 10)) eqn:E7;
    [apply Qgtb_true in E7 | apply Qgtb_false in E7]);
  (destruct (Qgtb f (5 # 10)) eqn:E5;
    [apply Qgtb_true in E5 | apply Qgtb_false in E5]);
  repeat split; intros; try reflexivity; exfalso; lra.
Qed.

Lemma inject_Z_sub (a b : Z) : (inject_Z (a - b) == inject_Z a - inject_Z b)%Q.
Proof.
  unfold Z.sub, Qminus. rewrite inject_Z_plus, inject_Z_opp. reflexivity.
Qed.

Lemma inject_Z_len_nonneg {A : Type} (l : list A) : (0 <= inject_Z (len l))%Q.
Proof. unfold len, Qle; simpl. lia. Qed.

(** ** The claims *)

(** C1 (divergence of the code).  The root loop of [alphabeta] hands its own
    [depth] to the minimizing layer, not [depth - 1].  On [toy_root] with
    depth 1 the two replies are therefore searched one ply further (values 0
    and 2) instead of being evaluated at once (values 5 and 1), and the
    second reply is chosen where the first would be. *)
Theorem alphabeta_root_depth_not_decremented :
  (forall a alpha,
      root_value Player0 toy_root 1 alpha a
      = ab_min_value Player0 (result toy_root a) alpha PosInf 1) /\
  rv_scores (root_loop Player0 toy_root 1 0%nat) = [Fin 0; Fin 2] /\
  map (fun a => ab_min_value Player0 (result toy_root a) NegInf PosInf (1 - 1))
    (actions toy_root) = [Fin 5; Fin 1] /\
  alphabeta Player0 0 toy_root 1 = Some 1%nat.
Proof.
  split; [intros a alpha; reflexivity|].
  split; [vm_compute; reflexivity|].
  split; vm_compute; reflexivity.
Qed.

(** C2.  With the full window the pruning recursion returns the value of
    the plain minimax of the same depth, in the maximizing and in the
    minimizing layer. *)
Theorem alphabeta_equals_minimax {State Action : Type}
    {G : Isolation State Action} (player_id : PlayerId) (state : State)
    (depth : Z) :
  ab_max_value player_id state NegInf PosInf depth
  = minimax_max player_id state depth /\
  ab_min_value player_id state NegInf PosInf depth
  = minimax_min player_id state depth.
Proof.
  unfold ab_max_value, ab_min_value, minimax_max, minimax_min.
  destruct (ab_bounded player_id (Z.to_nat depth)) as [Hmin Hmax].
  split; apply bounded_full; [apply Hmax | apply Hmin]; exact I.
Qed.

(** C3 (counterexample).  Players on cells 0 and 1 with two liberties each:
    the code returns -11/10, the specified formula gives -1. *)
Lemma score_central_spec_counterexample :
  let s := toy_board 2 2 50 in
  terminal_test s = false /\
  len (liberties s (locs s Player0)) = len (liberties s (locs s Player1)) /\
  (score_central Player0 s == -11 # 10)%Q /\
  (spec_score_central Player0 s == - (1))%Q /\
  ~ (score_central Player0 s == spec_score_central Player0 s)%Q.
Proof.
  repeat split; try (vm_compute; reflexivity).
  vm_compute. discriminate.
Qed.

(** C3 (amended).  With equal liberty counts [score_central] returns
    [(ownCentrality - oppCentrality) / 10] where the centrality of a location
    with [x = loc mod 13], [y = loc div 13] is
    [(5^2 - (x - 6)^2) + (4^2 - (y - 5)^2)]; with different counts it
    returns the Basic score. *)
Theorem score_central_formula {State Action : Type}
    {G : Isolation State Action} (player_id : PlayerId) (state : State) :
  let own_loc := locs state player_id in
  let opp_loc := locs state (opponent player_id) in
  let own := len (liberties state own_loc) in
  let opp := len (liberties state opp_loc) in
  let cen := fun loc : Z =>
    ((5 ^ 2 - (inject_Z (loc mod 13) - 6) ^ 2)
     + (4 ^ 2 - (inject_Z (loc / 13) - 5) ^ 2))%Q in
  (score_central player_id state ==
   if own =? opp then (cen own_loc - cen opp_loc) / 10
   else inject_Z (score player_id state))%Q.
Proof.
  intros own_loc opp_loc own opp cen.
  unfold score_central, score. fold own_loc opp_loc. fold own opp.
  destruct (own =? opp); simpl negb; cbv iota.
  - unfold centrality, cen, cen_x, cen_y.
    change (Qceiling (11 # 2)) with 6%Z. change (Qceiling (9 # 2)) with 5%Z.
    change (inject_Z 6) with 6%Q. change (inject_Z 5) with 5%Q.
    field.
  - reflexivity.
Qed.

(** *** What [str(state.board)] can hold *)

Lemma count_char_le_length (c : ascii) (s : string) :
  (count_char c s <= String.length s)%nat.
Proof.
  induction s as [|c' s IH]; simpl.
  - lia.
  - destruct (Ascii.eqb c' c); lia.
Qed.

Lemma decimal_digits_length (fuel : nat) :
  forall (k : nat) (n : Z) (acc : string),
    0 <= n < 10 ^ Z.of_nat (S k) ->
    (String.length (decimal_digits fuel n acc) <= S k + String.length acc)%nat.
Proof.
  induction fuel as [|fuel IH]; intros k n acc Hn; simpl.
  - lia.
  - destruct (Z.ltb_spec n 10) as [Hlt|Hge]; simpl.
    + lia.
    + destruct k as [|k].
      * change (10 ^ Z.of_nat 1) with 10 in Hn. lia.
      * rewrite Nat2Z.inj_succ, Z.pow_succ_r in Hn by lia.
        specialize (IH k (n / 10) (String (digit_char (n mod 10)) acc)).
        simpl String.length in IH.
        assert (0 <= n / 10 < 10 ^ Z.of_nat (S k)).
        { split.
          - apply Z.div_pos; lia.
          - apply Z.div_lt_upper_bound; lia. }
        specialize (IH H). lia.
Qed.

Lemma py_str_length (k : nat) (n : Z) :
  0 <= n < 10 ^ Z.of_nat (S k) -> (String.length (py_str n) <= S k)%nat.
Proof.
  intros Hn. unfold py_str.
  destruct (Z.ltb_spec n 0) as [Hneg|_]; [lia|].
  pose proof (decimal_digits_length (S (Z.to_nat (Z.log2 n))) k n EmptyString Hn)
    as H.
  change (String.length EmptyString) with O in H.
  rewrite Nat.add_0_r in H. exact H.
Qed.

(** The printer on the blank board, against the decimal printer of the
    standard library. *)
Lemma py_str_blank_board :
  py_str 0 = "0"%string /\
  py_str (- 1207) = "-1207"%string /\
  py_str four_rows_board = "1125487539644415"%string /\
  py_str blank_board = "41523161203939122082683632224299007"%string /\
  py_str blank_board = NilZero.string_of_int (Z.to_int blank_board) /\
  blank_board
  = fold_right (fun y acc => Z.shiftl (Z.ones 11) (13 * Z.of_nat y) + acc) 0
      (seq 0 9).
Proof. repeat split; vm_compute; reflexivity. Qed.

(** On a bitboard the decimal numeral has at most 35 digits, so
    [blocks_left] is at most 35. *)
Lemma blocks_left_bitboard {State Action : Type} {G : Isolation State Action}
    (state : State) :
  0 <= board state <= blank_board -> 0 <= blocks_left state <= 35.
Proof.
  intros [Hlo Hhi]. unfold blocks_left, board_str.
  assert (Hlen : (String.length (py_str (board state)) <= 35)%nat).
  { apply (py_str_length 34). split; [exact Hlo|].
    apply Z.le_lt_trans with blank_board; [exact Hhi|].
    vm_compute. reflexivity. }
  pose proof (count_char_le_length "1"%char (py_str (board state))). lia.
Qed.

Lemma multiplier_bitboard {State Action : Type} {G : Isolation State Action}
    (state : State) :
  0 <= board state <= blank_board ->
  multiplier (blocks_left_percent state) = 1%Q.
Proof.
  intros Hb. pose proof (blocks_left_bitboard state Hb) as Hn.
  unfold blocks_left_percent.
  apply (proj2 (proj2 (proj2 (multiplier_bands _)))).
  unfold Qdiv, Qle, Qmult, Qinv, inject_Z; cbn -[Z.mul]. lia.
Qed.

Lemma score_build_bitboard {State Action : Type} {G : Isolation State Action}
    (player_id : PlayerId) (state : State) :
  0 <= board state <= blank_board ->
  (score_build player_id state == inject_Z (score player_id state))%Q.
Proof.
  intros Hb. unfold score_build, score.
  rewrite (multiplier_bitboard state Hb), inject_Z_sub. ring.
Qed.

(** C4 (divergence of the code).  [blocks_left] counts the characters ['1']
    of the decimal numeral [str(state.board)], not the open cells (the set
    bits) of the board.  On every bitboard that count is at most 35, the
    fraction [blocks_left / 99] stays below 0.5, the multiplier is 1.00 and
    [score_build] is the Basic score, whatever fraction of the cells is
    open. *)
Theorem score_build_multiplier_never_fires {State Action : Type}
    {G : Isolation State Action} (player_id : PlayerId) (state : State) :
  0 <= board state <= blank_board ->
  blocks_left state <= 35 /\
  multiplier (blocks_left_percent state) = 1%Q /\
  (score_build player_id state
   == inject_Z (len (liberties state (locs state player_id)))
      - 1 * inject_Z (len (liberties state (locs state (opponent player_id)))))%Q.
Proof.
  intros Hb. split; [|split].
  - apply (blocks_left_bitboard state Hb).
  - apply (multiplier_bitboard state Hb).
  - unfold score_build. rewrite (multiplier_bitboard state Hb). reflexivity.
Qed.

(** All 99 cells open, three liberties against two: the open fraction is 1,
    above 0.9, and the score is 3 - 1.00 * 2 = 1, not 3 - 1.50 * 2 = 0. *)
Lemma score_build_multiplier_never_fires_witness :
  let s := toy_board 3 2 blank_board in
  open_cells s = 99 /\
  (9 # 10 < open_fraction s)%Q /\
  blocks_left s = 4 /\
  (score_build Player0 s == 3 - 1 * 2)%Q /\
  ~ (score_build Player0 s == 3 - (3 # 2) * 2)%Q.
Proof.
  intros s.
  assert (Hb : 0 <= board s <= blank_board) by (split; vm_compute; discriminate).
  pose proof (score_build_multiplier_never_fires Player0 s Hb) as (_ & _ & Hs).
  split; [vm_compute; reflexivity|].
  split; [vm_compute; reflexivity|].
  split; [vm_compute; reflexivity|].
  split; [exact Hs|].
  intros Hbad. rewrite Hs in Hbad. vm_compute in Hbad. discriminate.
Defined.

(** C5.  For a fixed pair of liberty counts with [oppLiberties > 0], the
    score of [score_build] does not increase when the fraction of open cells
    decreases, across 0.9, 0.7 and 0.5 alike: on bitboards the score does
    not depend on the board. *)
Theorem score_build_nonincreasing {State Action : Type}
    {G : Isolation State Action} (player_id : PlayerId) (hi lo : State) :
  0 <= board hi <= blank_board ->
  0 <= board lo <= blank_board ->
  len (liberties hi (locs hi player_id))
  = len (liberties lo (locs lo player_id)) ->
  len (liberties hi (locs hi (opponent player_id)))
  = len (liberties lo (locs lo (opponent player_id))) ->
  0 < len (liberties hi (locs hi (opponent player_id))) ->
  (open_fraction lo <= open_fraction hi)%Q ->
  (score_build player_id lo <= score_build player_id hi)%Q.
Proof.
  intros Hhi Hlo Hown Hopp _ _.
  rewrite (score_build_bitboard player_id hi Hhi).
  rewrite (score_build_bitboard player_id lo Hlo).
  unfold score. rewrite Hown, Hopp. apply Qle_refl.
Qed.

(** From 99 open cells down to 44, through all three thresholds. *)
Lemma score_build_nonincreasing_witness :
  let hi := toy_board 3 2 blank_board in
  let lo := toy_board 3 2 four_rows_board in
  (9 # 10 < open_fraction hi)%Q /\
  (open_fraction lo <= 5 # 10)%Q /\
  (score_build Player0 lo <= score_build Player0 hi)%Q.
Proof.
  intros hi lo.
  split; [vm_compute; reflexivity|].
  split; [vm_compute; discriminate|].
  apply (score_build_nonincreasing Player0 hi lo).
  - split; vm_compute; discriminate.
  - split; vm_compute; discriminate.
  - reflexivity.
  - reflexivity.
  - vm_compute; reflexivity.
  - vm_compute; discriminate.
Defined.

(** C6.  On a terminal state both layers return the utility for
    [self.player_id], whatever the depth: the terminal test comes before the
    depth cutoff. *)
Theorem terminal_utility_first {State Action : Type}
    {G : Isolation State Action} (player_id : PlayerId) (state : State)
    (alpha beta : Score) (depth : Z) :
  terminal_test state = true ->
  ab_min_value player_id state alpha beta depth = utility state player_id /\
  ab_max_value player_id state alpha beta depth = utility state player_id.
Proof.
  intros Hterm. unfold ab_min_value, ab_max_value.
  destruct (Z.to_nat depth); simpl; rewrite Hterm; split; reflexivity.
Qed.

Lemma terminal_utility_first_witness :
  ab_min_value Player0 toy_won NegInf PosInf 0 = PosInf /\
  ab_max_value Player0 toy_won NegInf PosInf 0 = PosInf.
Proof.
  exact (terminal_utility_first Player0 toy_won NegInf PosInf 0 eq_refl).
Defined.

(** ** The root loop and the opening policy *)

Lemma random_choice_In {A : Type} (r : nat) (l : list A) (a : A) :
  random_choice r l = Some a -> In a l.
Proof. unfold random_choice. apply nth_error_In. Qed.

Lemma random_choice_nonempty {A : Type} (r : nat) (l : list A) :
  l <> [] -> exists a, random_choice r l = Some a.
Proof.
  intros Hne. unfold random_choice.
  destruct (nth_error l (r mod List.length l)) as [a|] eqn:E.
  - now exists a.
  - exfalso. apply nth_error_None in E.
    assert (List.length l <> 0)%nat by (destruct l; simpl; congruence).
    pose proof (Nat.mod_upper_bound r (List.length l) H). lia.
Qed.

Lemma random_choice_index {A : Type} (i : nat) (l : list A) :
  (i < List.length l)%nat -> random_choice i l = nth_error l i.
Proof. intros Hi. unfold random_choice. now rewrite Nat.mod_small. Qed.

Section Root.

Context {State Action : Type} {G : Isolation State Action}.
Variable player_id : PlayerId.

Lemma root_step_best_move (state : State) (depth : Z) (vars : RootVars) (a : Action) :
  rv_best_move (root_step player_id state depth vars a) = a \/
  rv_best_move (root_step player_id state depth vars a) = rv_best_move vars.
Proof.
  unfold root_step. destruct (ScoreOrd.ltb _ _); simpl; auto.
Qed.

Lemma root_fold_legal (state : State) (depth : Z) (all acts : list Action) :
  forall vars : RootVars,
    In (rv_best_move vars) all ->
    (forall a, In a acts -> In a all) ->
    In (rv_best_move (fold_left (root_step player_id state depth) acts vars)) all.
Proof.
  induction acts as [|a rest IH]; intros vars Hin Hsub; simpl.
  - exact Hin.
  - apply IH.
    + destruct (root_step_best_move state depth vars a) as [E|E]; rewrite E.
      * apply Hsub. now left.
      * exact Hin.
    + intros b Hb. apply Hsub. now right.
Qed.

End Root.

(** C7.  With exactly one legal action [alphabeta] returns it, at every
    depth (in particular for [depth >= 1]) and for every draw. *)
Theorem alphabeta_single_action {State Action : Type}
    {G : Isolation State Action} (player_id : PlayerId) (r : nat)
    (state : State) (depth : Z) (a : Action) :
  actions state = [a] -> alphabeta player_id r state depth = Some a.
Proof.
  intros Hone. unfold alphabeta, root_loop, random_choice. rewrite Hone.
  simpl List.length. rewrite Nat.mod_1_r. simpl.
  destruct (root_step_best_move player_id state depth
              {| rv_alpha := NegInf; rv_best_score := NegInf;
                 rv_best_move := a; rv_scores := [] |} a) as [E|E];
    rewrite E; reflexivity.
Qed.

Lemma alphabeta_single_action_witness :
  alphabeta Player0 7 toy_forced 4 = Some 0%nat.
Proof.
  exact (alphabeta_single_action Player0 7 toy_forced 4 0%nat eq_refl).
Defined.

(** C8.  Before the second ply [get_action] puts [random.choice] of the
    legal actions on the queue - a legal action whenever there is one, the
    one at the drawn position - without calling [alphabeta]; from the second
    ply on it puts the result of [alphabeta(state, depth=4)]. *)
Theorem get_action_policy {State Action : Type}
    {G : Isolation State Action} (player_id : PlayerId) (r : nat)
    (state : State) (ag : Agent) :
  (ply_count state < 2 ->
   get_action player_id r state ag
   = option_map (fun a => {| queue := queue ag ++ [a];
                             alphabeta_calls := alphabeta_calls ag |})
       (random_choice r (actions state)) /\
   (actions state <> [] ->
    exists a, In a (actions state) /\ random_choice r (actions state) = Some a) /\
   (forall i, (i < List.length (actions state))%nat ->
      random_choice i (actions state) = nth_error (actions state) i)) /\
  (2 <= ply_count state ->
   get_action player_id r state ag
   = option_map (fun a => {| queue := queue ag ++ [a];
                             alphabeta_calls := alphabeta_calls ag ++ [(state, 4)] |})
       (alphabeta player_id r state 4)).
Proof.
  unfold get_action. split; intros Hply.
  - apply Z.ltb_lt in Hply. rewrite Hply. split; [|split].
    + destruct (random_choice r (actions state)); reflexivity.
    + intros Hne. destruct (random_choice_nonempty r _ Hne) as [a Ha].
      exists a. split; [eapply random_choice_In; eassumption | exact Ha].
    + intros i Hi. now apply random_choice_index.
  - apply Z.ltb_ge in Hply. rewrite Hply.
    destruct (alphabeta player_id r state 4); reflexivity.
Qed.

Lemma get_action_policy_witness :
  get_action Player0 1 toy_opening {| queue := []; alphabeta_calls := [] |}
  = Some {| queue := [1%nat]; alphabeta_calls := [] |} /\
  (exists a, In a (actions toy_opening) /\
             random_choice 1 (actions toy_opening) = Some a) /\
  get_action Player0 1 toy_root {| queue := []; alphabeta_calls := [] |}
  = option_map (fun a => {| queue := [a]; alphabeta_calls := [(toy_root, 4)] |})
      (alphabeta Player0 1 toy_root 4).
Proof.
  split; [|split].
  - refine (proj1 (proj1 (get_action_policy Player0 1 toy_opening
               {| queue := []; alphabeta_calls := [] |}) _)).
    reflexivity.
  - refine (proj1 (proj2 (proj1 (get_action_policy Player0 1 toy_opening
               {| queue := []; alphabeta_calls := [] |}) _)) _).
    + reflexivity.
    + discriminate.
  - refine (proj2 (get_action_policy Player0 1 toy_root
               {| queue := []; alphabeta_calls := [] |}) _).
    vm_compute; discriminate.
Defined.

(** C9.  The Basic evaluator is antisymmetric: from the other player's id
    the score of the same state is negated. *)
Theorem score_antisymmetric {State Action : Type}
    {G : Isolation State Action} (playerA playerB : PlayerId) (state : State) :
  playerA <> playerB ->
  score playerA state = - score playerB state.
Proof.
  intros Hne. unfold score.
  destruct playerA, playerB; try congruence; simpl; lia.
Qed.

Lemma score_antisymmetric_witness :
  score Player0 (toy_node 6 1 []) = - score Player1 (toy_node 6 1 []).
Proof.
  apply (score_antisymmetric Player0 Player1 (toy_node 6 1 [])).
  discriminate.
Defined.

(** C10.  With at least one legal action [alphabeta] returns a legal action
    of the root state, at every depth and for every draw. *)
Theorem alphabeta_legal {State Action : Type}
    {G : Isolation State Action} (player_id : PlayerId) (r : nat)
    (state : State) (depth : Z) :
  actions state <> [] ->
  exists a, alphabeta player_id r state depth = Some a /\ In a (actions state).
Proof.
  intros Hne. unfold alphabeta, root_loop.
  destruct (random_choice_nonempty r _ Hne) as [first Hfirst].
  rewrite Hfirst. eexists. split; [reflexivity|].
  apply root_fold_legal; simpl.
  - eapply random_choice_In; eassumption.
  - auto.
Qed.

Lemma alphabeta_legal_witness :
  exists a, alphabeta Player0 3 toy_root 2 = Some a /\ In a (actions toy_root).
Proof.
  apply (alphabeta_legal Player0 3 toy_root 2). discriminate.
Defined.

(** ** Further properties of the searcher *)

(** One step of the recursion at an integer depth. *)
Lemma ab_unfold {State Action : Type} {G : Isolation State Action}
    (player_id : PlayerId) (state : State) (alpha beta : Score) (depth : Z) :
  ab_min_value player_id state alpha beta depth =
  (if terminal_test state then utility state player_id
   else if depth <=? 0 then Fin (score player_id state)
   else min_loop (fun s a b => ab_max_value player_id s a b (depth - 1))
          state (actions state) PosInf alpha beta) /\
  ab_max_value player_id state alpha beta depth =
  (if terminal_test state then utility state player_id
   else if depth <=? 0 then Fin (score player_id state)
   else max_loop (fun s a b => ab_min_value player_id s a b (depth - 1))
          state (actions state) NegInf alpha beta).
Proof.
  unfold ab_min_value, ab_max_value.
  destruct (Z.leb_spec depth 0) as [Hd|Hd].
  - replace (Z.to_nat depth) with O by lia.
    simpl. split; reflexivity.
  - replace (Z.to_nat depth) with (S (Z.to_nat (depth - 1))) by lia.
    simpl. split; reflexivity.
Qed.

(** Fail-soft soundness for any proper window: a value at or below [alpha]
    is an upper bound of the minimax value, a value at or above [beta] a
    lower bound, and a value strictly inside the window is the minimax
    value. *)
Theorem alphabeta_window_sound {State Action : Type}
    {G : Isolation State Action} (player_id : PlayerId) (state : State)
    (alpha beta : Score) (depth : Z) :
  alpha <s beta ->
  bounded alpha beta (ab_max_value player_id state alpha beta depth)
    (minimax_max player_id state depth) /\
  bounded alpha beta (ab_min_value player_id state alpha beta depth)
    (minimax_min player_id state depth).
Proof.
  intros Hab. unfold ab_max_value, ab_min_value, minimax_max, minimax_min.
  destruct (ab_bounded player_id (Z.to_nat depth)) as [Hmin Hmax].
  split; [apply Hmax | apply Hmin]; exact Hab.
Qed.

Lemma alphabeta_window_sound_witness :
  bounded (Fin 3) (Fin 4) (ab_max_value Player0 toy_root (Fin 3) (Fin 4) 2)
    (minimax_max Player0 toy_root 2) /\
  bounded (Fin 3) (Fin 4) (ab_min_value Player0 toy_root (Fin 3) (Fin 4) 2)
    (minimax_min Player0 toy_root 2).
Proof.
  apply (alphabeta_window_sound Player0 toy_root (Fin 3) (Fin 4) 2). exact I.
Defined.

(** A non-terminal state without legal actions, above the cutoff: the loops
    do not run and the initial sentinel comes back, [+inf] from the
    minimizing layer and [-inf] from the maximizing one. *)
Theorem stuck_state_sentinel {State Action : Type}
    {G : Isolation State Action} (player_id : PlayerId) (state : State)
    (alpha beta : Score) (depth : Z) :
  terminal_test state = false -> actions state = [] -> 0 < depth ->
  ab_min_value player_id state alpha beta depth = PosInf /\
  ab_max_value player_id state alpha beta depth = NegInf.
Proof.
  intros Hterm Hacts Hd.
  destruct (ab_unfold player_id state alpha beta depth) as [Emin Emax].
  rewrite Emin, Emax, Hterm, Hacts.
  destruct (Z.leb_spec depth 0); [lia|]. split; reflexivity.
Qed.

Lemma stuck_state_sentinel_witness :
  ab_min_value Player0 (toy_node 2 1 []) NegInf PosInf 3 = PosInf /\
  ab_max_value Player0 (toy_node 2 1 []) NegInf PosInf 3 = NegInf.
Proof.
  apply (stuck_state_sentinel Player0 (toy_node 2 1 []) NegInf PosInf 3);
    reflexivity.
Defined.

Lemma random_choice_nil {A : Type} (r : nat) : random_choice r (@nil A) = None.
Proof. unfold random_choice. apply nth_error_None. simpl. lia. Qed.

(** [alphabeta] raises (the IndexError of [random.choice]) exactly when the
    state has no legal action, and so does [get_action], before and after the
    second ply. *)
Theorem no_action_raises {State Action : Type}
    {G : Isolation State Action} (player_id : PlayerId) (r : nat)
    (state : State) (depth : Z) (ag : Agent) :
  (alphabeta player_id r state depth = None <-> actions state = []) /\
  (get_action player_id r state ag = None <-> actions state = []).
Proof.
  assert (Hab : forall d, alphabeta player_id r state d = None
                          <-> actions state = []).
  { intros d. unfold alphabeta. split.
    - intros H. destruct (actions state) as [|a l] eqn:E; [reflexivity|].
      destruct (random_choice_nonempty r (a :: l)) as [x Hx]; [discriminate|].
      rewrite Hx in H. discriminate.
    - intros ->. now rewrite random_choice_nil. }
  split; [apply Hab|].
  unfold get_action. destruct (ply_count state <? 2).
  - split.
    + intros H. destruct (actions state) as [|a l] eqn:E; [reflexivity|].
      destruct (random_choice_nonempty r (a :: l)) as [x Hx]; [discriminate|].
      rewrite Hx in H. discriminate.
    + intros ->. now rewrite random_choice_nil.
  - rewrite <- (Hab 4).
    destruct (alphabeta player_id r state 4); split; intros; congruence.
Qed.

Section RootOptimal.

Context {State Action : Type} {G : Isolation State Action}.
Variable player_id : PlayerId.
Variable state : State.
Variable depth : Z.

(** The minimax value of the reply [a], at the depth the root hands down. *)
Definition reply_value (a : Action) : Score :=
  minimax_min player_id (result state a) depth.

(** What holds of the root variables once the actions [seen] are done. *)
Definition root_inv (seen : list Action) (vars : RootVars) : Prop :=
  rv_alpha vars = rv_best_score vars /\
  (forall b, In b seen -> reply_value b <=s rv_best_score vars) /\
  (rv_best_score vars = NegInf \/
   exists l1 l2,
     seen = l1 ++ rv_best_move vars :: l2 /\
     reply_value (rv_best_move vars) = rv_best_score vars /\
     forall b, In b l1 -> reply_value b <s rv_best_score vars).

Lemma root_step_inv (seen : list Action) (vars : RootVars) (a : Action) :
  root_inv seen vars ->
  root_inv (seen ++ [a]) (root_step player_id state depth vars a).
Proof.
  intros (Halpha & Hle & Hbest).
  unfold root_step, root_value.
  set (v := ab_min_value player_id (result state a) (rv_alpha vars) PosInf depth).
  assert (K : (rv_best_score vars <s v -> v = reply_value a) /\
              (v <=s rv_best_score vars -> reply_value a <=s rv_best_score vars)).
  { pose proof (PosInf_greatest v) as Hv.
    pose proof (PosInf_greatest (reply_value a)) as Hm.
    pose proof (PosInf_greatest (rv_alpha vars)) as Ha.
    destruct (sle_or_lt PosInf (rv_alpha vars)) as [Htop|Hlt].
    - rewrite Halpha in *. split; intros; ScoreTac.order.
    - assert (B : bounded (rv_alpha vars) PosInf v (reply_value a)).
      { apply (proj1 (ab_bounded player_id (Z.to_nat depth))). exact Hlt. }
      destruct B as (B1 & B2 & B3).
      rewrite Halpha in *. split; intros H.
      + destruct (sle_or_lt PosInf v) as [Hv'|Hv'].
        * specialize (B2 Hv'). ScoreTac.order.
        * apply B3; assumption.
      + specialize (B1 H). ScoreTac.order. }
  destruct K as [K1 K2]. clearbody v.
  destruct (ScoreOrd.ltb (rv_best_score vars) v) eqn:E.
  - apply ltb_true_lt in E. specialize (K1 E).
    unfold root_inv; simpl. split; [|split].
    + rewrite Halpha. score_order.
    + intros b Hb. apply in_app_or in Hb. destruct Hb as [Hb|[Hb|[]]].
      * specialize (Hle b Hb). ScoreTac.order.
      * subst b. rewrite <- K1. ScoreTac.order.
    + right. exists seen, []. split; [reflexivity|]. split; [now symmetry|].
      intros b Hb. specialize (Hle b Hb). ScoreTac.order.
  - apply ltb_false_le in E. specialize (K2 E).
    unfold root_inv; simpl. split; [|split].
    + rewrite Halpha. score_order.
    + intros b Hb. apply in_app_or in Hb. destruct Hb as [Hb|[Hb|[]]].
      * exact (Hle b Hb).
      * subst b. exact K2.
    + destruct Hbest as [Hneg|(l1 & l2 & Hseen & Hval & Hfirst)].
      * now left.
      * right. exists l1, (l2 ++ [a]). split; [|split; assumption].
        rewrite Hseen, <- app_assoc. reflexivity.
Qed.

Lemma root_fold_inv (acts : list Action) :
  forall (seen : list Action) (vars : RootVars),
    root_inv seen vars ->
    root_inv (seen ++ acts) (fold_left (root_step player_id state depth) acts vars).
Proof.
  induction acts as [|a rest IH]; intros seen vars Hinv; simpl.
  - now rewrite app_nil_r.
  - replace (seen ++ a :: rest) with ((seen ++ [a]) ++ rest)
      by (rewrite <- app_assoc; reflexivity).
    apply IH. now apply root_step_inv.
Qed.

End RootOptimal.

(** The move [alphabeta] returns is a legal action whose reply has the
    largest minimax value among all legal actions, the replies being searched
    to the root's own [depth]; and unless every reply is worth [-inf] it is
    the first such action in the enumeration (strict [>] keeps the earlier of
    two equal moves). *)
Theorem alphabeta_first_maximizer {State Action : Type}
    {G : Isolation State Action} (player_id : PlayerId) (r : nat)
    (state : State) (depth : Z) (a : Action) :
  alphabeta player_id r state depth = Some a ->
  In a (actions state) /\
  (forall b, In b (actions state) ->
     reply_value player_id state depth b <=s reply_value player_id state depth a) /\
  ((exists b, In b (actions state)
              /\ NegInf <s reply_value player_id state depth b) ->
   exists l1 l2,
     actions state = l1 ++ a :: l2 /\
     forall b, In b l1 ->
       reply_value player_id state depth b <s reply_value player_id state depth a).
Proof.
  intros Hret.
  unfold alphabeta in Hret.
  destruct (random_choice r (actions state)) as [first|] eqn:Hfirst;
    [|discriminate].
  injection Hret as Hret. unfold root_loop in Hret.
  assert (Hin : In a (actions state)).
  { rewrite <- Hret. apply root_fold_legal; simpl.
    - eapply random_choice_In; eassumption.
    - auto. }
  pose proof (root_fold_inv player_id state depth (actions state) []
                {| rv_alpha := NegInf; rv_best_score := NegInf;
                   rv_best_move := first; rv_scores := [] |}) as Hinv.
  simpl app in Hinv. rewrite <- Hret.
  destruct Hinv as (_ & Hle & Hbest).
  { unfold root_inv; simpl. split; [reflexivity|]. split; [intros b []|now left]. }
  set (final := fold_left _ _ _) in *. rewrite <- Hret in Hin. clearbody final.
  split; [exact Hin|].
  destruct Hbest as [Hneg|(l1 & l2 & Hall & Hval & Hfirst')].
  - split.
    + intros b Hb. pose proof (Hle b Hb) as H1. pose proof (Hle _ Hin) as H2.
      rewrite Hneg in *.
      pose proof (NegInf_least (reply_value player_id state depth (rv_best_move final))).
      ScoreTac.order.
    + intros (b & Hb & Hpos). pose proof (Hle b Hb) as H1.
      rewrite Hneg in H1. exfalso. ScoreTac.order.
  - split.
    + intros b Hb. rewrite Hval. exact (Hle b Hb).
    + intros _. exists l1, l2. split; [exact Hall|].
      intros b Hb. rewrite Hval. exact (Hfirst' b Hb).
Qed.

Lemma alphabeta_first_maximizer_witness :
  In 1%nat (actions toy_root) /\
  (forall b, In b (actions toy_root) ->
     reply_value Player0 toy_root 1 b <=s reply_value Player0 toy_root 1 1%nat) /\
  ((exists b, In b (actions toy_root)
              /\ NegInf <s reply_value Player0 toy_root 1 b) ->
   exists l1 l2,
     actions toy_root = l1 ++ 1%nat :: l2 /\
     forall b, In b l1 ->
       reply_value Player0 toy_root 1 b <s reply_value Player0 toy_root 1 1%nat).
Proof.
  apply (alphabeta_first_maximizer Player0 0 toy_root 1 1%nat). reflexivity.
Defined.

(** ** Further properties of the evaluators *)

Lemma opponent_involutive (p : PlayerId) : opponent (opponent p) = p.
Proof. now destruct p. Qed.

(** [opponent] is [1 - self.player_id] on the indices 0 and 1. *)
Lemma opponent_index (p : PlayerId) :
  player_index (opponent p) = 1 - player_index p.
Proof. now destruct p. Qed.

(** The center-biased evaluator is antisymmetric as well: seen from the
    other player the score is negated, in the mobility branch and in the
    centrality branch. *)
Theorem score_central_antisymmetric {State Action : Type}
    {G : Isolation State Action} (player_id : PlayerId) (state : State) :
  (score_central (opponent player_id) state
   == - score_central player_id state)%Q.
Proof.
  unfold score_central. rewrite opponent_involutive.
  set (own := len (liberties state (locs state player_id))).
  set (opp := len (liberties state (locs state (opponent player_id)))).
  rewrite (Z.eqb_sym opp own).
  destruct (own =? opp); simpl negb; cbv iota.
  - field.
  - rewrite <- inject_Z_opp. f_equal. 
    replace (- (own - opp)) with (opp - own) by lia. reflexivity.
Qed.

(** The aggressive evaluator is not: the two players' scores add up to half
    the total number of liberties, so they are opposite only when neither
    player can move. *)
Theorem score_aggressive_sum {State Action : Type}
    {G : Isolation State Action} (player_id : PlayerId) (state : State) :
  let own := len (liberties state (locs state player_id)) in
  let opp := len (liberties state (locs state (opponent player_id))) in
  (score_aggressive player_id state + score_aggressive (opponent player_id) state
   == inject_Z (own + opp) / 2)%Q /\
  ((score_aggressive (opponent player_id) state
    == - score_aggressive player_id state)%Q <-> own = 0 /\ opp = 0).
Proof.
  intros own opp. unfold score_aggressive. rewrite opponent_involutive.
  fold own opp.
  assert (Hown : 0 <= own) by (unfold own, len; lia).
  assert (Hopp : 0 <= opp) by (unfold opp, len; lia).
  assert (Hqown : (0 <= inject_Z own)%Q) by (unfold Qle; simpl; lia).
  assert (Hqopp : (0 <= inject_Z opp)%Q) by (unfold Qle; simpl; lia).
  split.
  - rewrite inject_Z_plus. field.
  - split.
    + intros H.
      assert (Hsum : (inject_Z own + inject_Z opp == 0)%Q) by lra.
      assert (Ho : (inject_Z own == 0)%Q) by lra.
      assert (Hp : (inject_Z opp == 0)%Q) by lra.
      unfold Qeq in Ho, Hp; simpl in Ho, Hp. lia.
    + intros [-> ->]. reflexivity.
Qed.

(** [score_build] lies between the Basic score with the opponent's liberties
    counted twice and the Basic score itself. *)
Theorem score_build_bounds {State Action : Type}
    {G : Isolation State Action} (player_id : PlayerId) (state : State) :
  let own := inject_Z (len (liberties state (locs state player_id))) in
  let opp := inject_Z (len (liberties state (locs state (opponent player_id)))) in
  (own - 2 * opp <= score_build player_id state)%Q /\
  (score_build player_id state <= inject_Z (score player_id state))%Q.
Proof.
  intros own opp. unfold score_build, score. fold own opp.
  rewrite inject_Z_sub. fold own opp.
  assert (Hopp : (0 <= opp)%Q) by apply inject_Z_len_nonneg.
  assert (Hm : (1 <= multiplier (blocks_left_percent state) <= 2)%Q).
  { unfold multiplier.
    destruct (Qgtb _ (9 # 10)); [lra|].
    destruct (Qgtb _ (7 # 10)); [lra|].
    destruct (Qgtb _ (5 # 10)); lra. }
  clearbody own opp. split; nra.
Qed.

(** The ladder of [score_build] in whole cells: 90 or more characters ['1']
    in [str(state.board)] give the multiplier 1.5, 70 to 89 give 1.75, 50 to
    69 give 2, and 49 or fewer give 1. *)
Theorem multiplier_by_blocks_left {State Action : Type}
    {G : Isolation State Action} (state : State) :
  multiplier (blocks_left_percent state) =
  (if 90 <=? blocks_left state then 3 # 2
   else if 70 <=? blocks_left state then 7 # 4
   else if 50 <=? blocks_left state then 2
   else 1)%Q.
Proof.
  unfold blocks_left_percent.
  set (n := blocks_left state).
  destruct (multiplier_bands (inject_Z n / 99)) as (H9 & H7 & H5 & H0).
  assert (Hlt : forall k : Z, (k # 10 < inject_Z n / 99)%Q <-> 99 * k < 10 * n).
  { intros k. unfold Qdiv, Qlt, Qmult, Qinv, inject_Z; cbn -[Z.mul]. lia. }
  assert (Hle : forall k : Z, (inject_Z n / 99 <= k # 10)%Q <-> 10 * n <= 99 * k).
  { intros k. unfold Qdiv, Qle, Qmult, Qinv, inject_Z; cbn -[Z.mul]. lia. }
  destruct (Z.leb_spec 90 n).
  - apply H9. apply Hlt. lia.
  - destruct (Z.leb_spec 70 n).
    + apply H7; [apply Hlt | apply Hle]; lia.
    + destruct (Z.leb_spec 50 n).
      * apply H5; [apply Hlt | apply Hle]; lia.
      * apply H0. apply Hle. lia.
Qed.

(** The centrality of a location is at most 41, reached exactly at column 6
    of row 5 (location 71). *)
Theorem centrality_maximum (loc : Z) :
  (centrality loc <= 41)%Q /\
  ((centrality loc == 41)%Q <-> loc mod 13 = 6 /\ loc / 13 = 5).
Proof.
  unfold centrality, cen_x, cen_y.
  change (Qceiling (11 # 2)) with 6%Z. change (Qceiling (9 # 2)) with 5%Z.
  set (x := loc mod 13). set (y := loc / 13). clearbody x y.
  assert (E : ((11 - inject_Z 6) ^ 2 - (inject_Z x - inject_Z 6) ^ 2
               + ((9 - inject_Z 5) ^ 2 - (inject_Z y - inject_Z 5) ^ 2)
               == inject_Z (41 - (x - 6) * (x - 6) - (y - 5) * (y - 5)))%Q).
  { rewrite !inject_Z_sub, !inject_Z_mult, !inject_Z_sub.
    change (inject_Z 6) with 6%Q. change (inject_Z 5) with 5%Q.
    change (inject_Z 41) with 41%Q. ring. }
  rewrite E. change 41%Q with (inject_Z 41).
  pose proof (Z.square_nonneg (x - 6)) as Hx.
  pose proof (Z.square_nonneg (y - 5)) as Hy.
  split.
  - rewrite <- Zle_Qle. lia.
  - rewrite inject_Z_injective. split.
    + intros H.
      assert (Hx0 : (x - 6) * (x - 6) = 0) by lia.
      assert (Hy0 : (y - 5) * (y - 5) = 0) by lia.
      apply Z.eq_mul_0 in Hx0, Hy0. lia.
    + intros [-> ->]. reflexivity.
Qed.

(** When [get_action] returns it has put exactly one action on the queue,
    after what was there, and that action is legal in the given state -
    whether it came from the opening draw or from the search. *)
Theorem get_action_reports_legal {State Action : Type}
    {G : Isolation State Action} (player_id : PlayerId) (r : nat)
    (state : State) (ag ag' : Agent) :
  get_action player_id r state ag = Some ag' ->
  exists a, In a (actions state) /\ queue ag' = queue ag ++ [a].
Proof.
  unfold get_action, alphabeta, root_loop.
  destruct (ply_count state <? 2).
  - destruct (random_choice r (actions state)) as [a|] eqn:E; [|discriminate].
    intros H. injection H as <-. exists a. split; [|reflexivity].
    eapply random_choice_In; eassumption.
  - destruct (random_choice r (actions state)) as [first|] eqn:E; [|discriminate].
    intros H. injection H as <-. eexists. split; [|reflexivity].
    apply root_fold_legal; simpl.
    + eapply random_choice_In; eassumption.
    + auto.
Qed.

Lemma get_action_reports_legal_witness :
  exists a, In a (actions toy_opening) /\ [1%nat] = [] ++ [a].
Proof.
  apply (get_action_reports_legal Player0 1 toy_opening
           {| queue := []; alphabeta_calls := [] |}
           {| queue := [1%nat]; alphabeta_calls := [] |}).
  reflexivity.
Defined.
